(** * p2s: severity-gated routing of vulnerability findings

    A shallow embedding of [main.go]: the severity table, the shared
    configuration, the [/config] handlers and [processVulnerability],
    first as sequential functions over a configuration value, then as
    lock-taking programs interleaved by a scheduler; and the callback of
    the subscription with its counter. *)

From Stdlib Require Import ZArith NArith Ascii String.
From stdpp Require Import base option list gmap strings.

Local Open Scope string_scope.
Local Open Scope Z_scope.

(** ** Data model *)

(** [type Vulnerability struct]; the Go field [Type] is spelled [Type_]
    because [Type] is reserved. *)
Record Vulnerability := mkVulnerability {
  Severity : string;
  Type_ : string;
  Description : string;
  PackageName : string;
  ResourceName : string
}.

(** [type Config struct], without its [Mutex]: the lock is part of the
    shared state of the concurrent model below. *)
Record Config := mkConfig {
  OSChannelName : string;
  OSMinSeverity : string;
  AppChannelName : string;
  AppMinSeverity : string
}.

(** [var config = Config{...}] *)
Definition config : Config := {|
  OSChannelName := "#os-vulns";
  OSMinSeverity := "MEDIUM";
  AppChannelName := "#app-vulns";
  AppMinSeverity := "HIGH"
|}.

(** [var severityLevels = map[string]int{...}] *)
Definition severityLevels : gmap string Z :=
  <["LOW" := 1]> (<["MEDIUM" := 2]> (<["HIGH" := 3]> (<["CRITICAL" := 4]> ∅))).

(** Indexing a Go [map[string]int]: an absent key reads as the zero value. *)
Definition index (m : gmap string Z) (k : string) : Z := default 0 (m !! k).

(** The severity rank, [severityLevels[label]]. *)
Definition rank (label : string) : Z := index severityLevels label.

(** The closed set of severity labels. *)
Definition known (label : string) : Prop :=
  label = "LOW" ∨ label = "MEDIUM" ∨ label = "HIGH" ∨ label = "CRITICAL".

(** ** [strings.ToUpper]

    A Go string is a sequence of bytes, as is a Rocq [string].  On a string
    of ASCII bytes only, [strings.ToUpper] subtracts ['a' - 'A'] from every
    byte between ['a'] and ['z'].  On any other string it returns
    [strings.Map(unicode.ToUpper, s)], which decodes UTF-8 and consults the
    Unicode case tables; these are not part of the program and are taken as
    the parameter [mapUnicodeToUpper] of the development. *)

Definition isASCIIByte (c : ascii) : bool := (N_of_ascii c <? 128)%N.

Definition isLowerByte (c : ascii) : bool :=
  ((97 <=? N_of_ascii c) && (N_of_ascii c <=? 122))%N.

Definition upperByte (c : ascii) : ascii :=
  if isLowerByte c then ascii_of_N (N_of_ascii c - 32) else c.

Fixpoint isASCII (s : string) : bool :=
  match s with
  | EmptyString => true
  | String c s' => isASCIIByte c && isASCII s'
  end.

Fixpoint upperBytes (s : string) : string :=
  match s with
  | EmptyString => EmptyString
  | String c s' => String (upperByte c) (upperBytes s')
  end.

(** [c.PostForm(key)] of gin: the value posted under [key], or the empty
    string when the form has no such field. *)
Definition PostForm (form : gmap string string) (key : string) : string :=
  default "" (form !! key).

(** The routing rule of a category, as the pair (channel, minSeverity);
    the configuration has rules for ["OS"] and ["APP"] only. *)
Definition ruleOf (c : Config) (category : string) : option (string * string) :=
  if String.eqb category "OS" then Some (OSChannelName c, OSMinSeverity c)
  else if String.eqb category "APP" then Some (AppChannelName c, AppMinSeverity c)
  else None.

(** The form fields that carry the rule of a category. *)
Definition formRule (form : gmap string string) (category : string)
  : option (string * string) :=
  if String.eqb category "OS"
  then Some (PostForm form "os_channel", PostForm form "os_severity")
  else if String.eqb category "APP"
  then Some (PostForm form "app_channel", PostForm form "app_severity")
  else None.

(** ** The handlers as programs over the shared configuration

    A goroutine is a program that locks and unlocks [config.Mutex], reads
    and writes single fields of [config] and calls the collaborators
    ([sendToSlack], [tmpl.Execute], [c.Redirect]).  Every constructor is one
    scheduling step. *)

Inductive field := FOSChannelName | FOSMinSeverity | FAppChannelName | FAppMinSeverity.

Definition getField (f : field) (c : Config) : string :=
  match f with
  | FOSChannelName => OSChannelName c
  | FOSMinSeverity => OSMinSeverity c
  | FAppChannelName => AppChannelName c
  | FAppMinSeverity => AppMinSeverity c
  end.

Definition setField (f : field) (x : string) (c : Config) : Config :=
  match f with
  | FOSChannelName => mkConfig x (OSMinSeverity c) (AppChannelName c) (AppMinSeverity c)
  | FOSMinSeverity => mkConfig (OSChannelName c) x (AppChannelName c) (AppMinSeverity c)
  | FAppChannelName => mkConfig (OSChannelName c) (OSMinSeverity c) x (AppMinSeverity c)
  | FAppMinSeverity => mkConfig (OSChannelName c) (OSMinSeverity c) (AppChannelName c) x
  end.

(** The body of the [POST /config] handler between [Lock] and [Unlock]:
    all four fields are assigned from the form. *)
Definition postConfig (form : gmap string string) (c : Config) : Config :=
  let c := setField FOSChannelName (PostForm form "os_channel") c in
  let c := setField FOSMinSeverity (PostForm form "os_severity") c in
  let c := setField FAppChannelName (PostForm form "app_channel") c in
  setField FAppMinSeverity (PostForm form "app_severity") c.

(** Calls that leave the core: they block on the network. *)
Inductive call :=
| SendToSlack (channel : string) (v : Vulnerability)
| Execute (data : Config)
| Redirect.

Inductive prog :=
| Done
| RLock (k : prog)
| RUnlock (k : prog)
| Lock (k : prog)
| Unlock (k : prog)
| Read (f : field) (k : string → prog)
| Write (f : field) (x : string) (k : prog)
| Call (e : call) (k : prog).

(** [GET /config]: [tmpl.Execute(c.Writer, config)] copies the struct and
    renders it; the deferred [RUnlock] runs when the handler returns.  The
    copy is the reads of the four string fields; that it also copies the
    [Mutex] field is outside [Config] and not modelled. *)
Definition getConfigHandler : prog :=
  RLock (
    Read FOSChannelName (λ a,
    Read FOSMinSeverity (λ b,
    Read FAppChannelName (λ c,
    Read FAppMinSeverity (λ d,
    Call (Execute (mkConfig a b c d)) (
  RUnlock Done)))))).

(** [POST /config] *)
Definition postConfigHandler (form : gmap string string) : prog :=
  Lock (
    Write FOSChannelName (PostForm form "os_channel") (
    Write FOSMinSeverity (PostForm form "os_severity") (
    Write FAppChannelName (PostForm form "app_channel") (
    Write FAppMinSeverity (PostForm form "app_severity") (
    Call Redirect (
  Unlock Done)))))).

(** The configuration a form describes. *)
Definition formConfig (form : gmap string string) : Config :=
  mkConfig (PostForm form "os_channel") (PostForm form "os_severity")
           (PostForm form "app_channel") (PostForm form "app_severity").

(** The writes a program makes before it next releases a lock. *)
Fixpoint writesOf (p : prog) (c : Config) : Config :=
  match p with
  | Write f x k => writesOf k (setField f x c)
  | Call _ k => writesOf k c
  | _ => c
  end.

(** A goroutine: the rest of its program and the field values it has read
    since it last took the read lock, newest first. *)
Record thread := mkThread {
  code : prog;
  log : list (field * string)
}.

(** The process: the goroutines, [config] without its lock, the state of
    [config.Mutex] as the goroutines that hold it (the writer, the readers;
    [sync.RWMutex] itself keeps the number of readers only), and the calls
    made so far, newest first. *)
Record state := mkState {
  pool : list thread;
  cfg : Config;
  writer : option nat;
  readers : gset nat;
  calls : list (nat * call)
}.

(** One step of goroutine [i], [None] when it is blocked or has returned.
    [RLock] waits while a writer holds the lock, [Lock] while anyone does.
    That a waiting [Lock] also keeps new readers out only removes
    interleavings and is left out. *)
Definition stepf (i : nat) (s : state) : option state :=
  t ← pool s !! i;
  match code t with
  | Done => None
  | RLock k =>
      if decide (writer s = None)
      then Some (mkState (<[i := mkThread k []]> (pool s)) (cfg s)
                         (writer s) ({[i]} ∪ readers s) (calls s))
      else None
  | RUnlock k =>
      if decide (i ∈ readers s)
      then Some (mkState (<[i := mkThread k (log t)]> (pool s)) (cfg s)
                         (writer s) (readers s ∖ {[i]}) (calls s))
      else None
  | Lock k =>
      if decide (writer s = None ∧ readers s = ∅)
      then Some (mkState (<[i := mkThread k (log t)]> (pool s)) (cfg s)
                         (Some i) (readers s) (calls s))
      else None
  | Unlock k =>
      if decide (writer s = Some i)
      then Some (mkState (<[i := mkThread k (log t)]> (pool s)) (cfg s)
                         None (readers s) (calls s))
      else None
  | Read f k =>
      let x := getField f (cfg s) in
      Some (mkState (<[i := mkThread (k x) ((f, x) :: log t)]> (pool s)) (cfg s)
                    (writer s) (readers s) (calls s))
  | Write f x k =>
      Some (mkState (<[i := mkThread k (log t)]> (pool s)) (setField f x (cfg s))
                    (writer s) (readers s) (calls s))
  | Call e k =>
      Some (mkState (<[i := mkThread k (log t)]> (pool s)) (cfg s)
                    (writer s) (readers s) ((i, e) :: calls s))
  end.

(** A program run by itself on a configuration, where no lock ever blocks:
    the calls it makes, in order, and the configuration it leaves. *)
Fixpoint alone (p : prog) (c : Config) : list call * Config :=
  match p with
  | Done => ([], c)
  | RLock k | RUnlock k | Lock k | Unlock k => alone k c
  | Read f k => alone (k (getField f c)) c
  | Write f x k => alone k (setField f x c)
  | Call e k => let '(es, c') := alone k c in (e :: es, c')
  end.

(** Running a schedule, one goroutine index per step. *)
Fixpoint run (sched : list nat) (s : state) : option state :=
  match sched with
  | [] => Some s
  | i :: sched' => s' ← stepf i s; run sched' s'
  end.

(** Which lock goroutine [i] holds. *)
Inductive mode := Free | Reading | Writing.

Definition modeOf (s : state) (i : nat) : mode :=
  if decide (writer s = Some i) then Writing
  else if decide (i ∈ readers s) then Reading
  else Free.

(** The lock discipline of the handlers, for a set [S] of configurations:
    fields are read with the read lock held and written with the write lock
    held, [sendToSlack] and [tmpl.Execute] are called with the read lock
    held and [c.Redirect] with the write lock held, and the writes made
    under one write lock leave a configuration of [S]. *)
Inductive follows (S : Config → Prop) : mode → prog → Prop :=
| follows_Done : follows S Free Done
| follows_RLock k : follows S Reading k → follows S Free (RLock k)
| follows_Lock k :
    follows S Writing k → (∀ c, S (writesOf k c)) → follows S Free (Lock k)
| follows_Read f k : (∀ x, follows S Reading (k x)) → follows S Reading (Read f k)
| follows_CallR e k : e ≠ Redirect → follows S Reading k → follows S Reading (Call e k)
| follows_RUnlock k : follows S Free k → follows S Reading (RUnlock k)
| follows_Write f x k : follows S Writing k → follows S Writing (Write f x k)
| follows_CallW k : follows S Writing k → follows S Writing (Call Redirect k)
| follows_Unlock k : follows S Free k → follows S Writing (Unlock k).

(** The values read are those of the configuration [c]. *)
Definition agrees (l : list (field * string)) (c : Config) : Prop :=
  ∀ f x, (f, x) ∈ l → getField f c = x.

(** What holds of every reachable state. *)
Record invariant (S : Config → Prop) (s : state) : Prop := mkInvariant {
  inv_follows : ∀ i t, pool s !! i = Some t → follows S (modeOf s i) (code t);
  inv_excl : ∀ i, writer s = Some i → readers s = ∅;
  inv_writer : ∀ i, writer s = Some i →
               ∃ t, pool s !! i = Some t ∧ S (writesOf (code t) (cfg s));
  inv_idle : writer s = None → S (cfg s);
  inv_reading : ∀ i t, pool s !! i = Some t → i ∈ readers s → agrees (log t) (cfg s);
  inv_log : ∀ i t, pool s !! i = Some t → ∃ c, S c ∧ agrees (log t) c
}.

Section Routing.

(** [strings.Map(unicode.ToUpper, s)], used on strings with a byte
    above 0x7f. *)
Variable mapUnicodeToUpper : string → string.

Definition ToUpper (s : string) : string :=
  if isASCII s then upperBytes s else mapUnicodeToUpper s.

(** [processVulnerability], run on the configuration [c] it reads under
    the read lock: the result is the call [sendToSlack(channel, v)] it
    makes, if any. *)
Definition processVulnerability (c : Config) (v : Vulnerability)
  : option (string * Vulnerability) :=
  let severityRank := rank (ToUpper (Severity v)) in
  if String.eqb (Type_ v) "OS" && (rank (OSMinSeverity c) <=? severityRank) then
    Some (OSChannelName c, v)
  else if String.eqb (Type_ v) "APP" && (rank (AppMinSeverity c) <=? severityRank) then
    Some (AppChannelName c, v)
  else None.

(** The routing decision: whether a dispatch happens and to which channel. *)
Definition decision (c : Config) (v : Vulnerability) : option string :=
  fst <$> processVulnerability c v.

(** [processVulnerability] as a program. *)
Definition sendAndReturn (chan : field) (v : Vulnerability) : prog :=
  Read chan (λ channel, Call (SendToSlack channel v) (RUnlock Done)).

Definition elseIfApp (v : Vulnerability) (severityRank : Z) : prog :=
  if String.eqb (Type_ v) "APP" then
    Read FAppMinSeverity (λ m,
      if rank m <=? severityRank then sendAndReturn FAppChannelName v
      else RUnlock Done)
  else RUnlock Done.

Definition processVulnerabilityHandler (v : Vulnerability) : prog :=
  RLock (
    let severityRank := rank (ToUpper (Severity v)) in
    if String.eqb (Type_ v) "OS" then
      Read FOSMinSeverity (λ m,
        if rank m <=? severityRank then sendAndReturn FOSChannelName v
        else elseIfApp v severityRank)
    else elseIfApp v severityRank).

(** What arrives: a finding from the subscription, or a request on
    [/config]. *)
Inductive request :=
| Finding (v : Vulnerability)
| GetConfig
| PostConfig (form : gmap string string).

Definition handler (r : request) : prog :=
  match r with
  | Finding v => processVulnerabilityHandler v
  | GetConfig => getConfigHandler
  | PostConfig form => postConfigHandler form
  end.

(** The process at start: one goroutine per request, the default
    configuration, the lock free. *)
Definition initial (requests : list request) : state :=
  mkState ((λ r, mkThread (handler r) []) <$> requests) config None ∅ [].

Inductive reachable (requests : list request) : state → Prop :=
| reachable_initial : reachable requests (initial requests)
| reachable_step s i s' :
    reachable requests s → stepf i s = Some s' → reachable requests s'.

(** The configurations ever installed whole: the defaults and, for each
    [POST /config], the one its form describes. *)
Fixpoint installed (requests : list request) : list Config :=
  match requests with
  | [] => [config]
  | PostConfig form :: rs => formConfig form :: installed rs
  | _ :: rs => installed rs
  end.

End Routing.


(** A finding with another severity. *)
Definition withSeverity (sev : string) (v : Vulnerability) : Vulnerability :=
  mkVulnerability sev (Type_ v) (Description v) (PackageName v) (ResourceName v).

(** An instance of the Unicode parameter for running the definitions on
    strings of ASCII bytes, on which it is not called. *)
Definition asciiOnly : string → string := λ s, s.

(** ** The subscription callback

    The function given to [sub.Receive] in [startPubSubListener], on one
    message.  [json.Unmarshal] belongs to the Go library and is the
    parameter [unmarshal]: the finding decoded from the bytes of the
    message, or [None] for its error. *)

(** How a message is answered. *)
Inductive answer := Ack | Nack.

(** [vulnCounter]: one count for every pair of label values (severity,
    type), none before the first increment.  The counts are whole numbers;
    the label values are strings decoded by [json.Unmarshal], which are
    valid UTF-8, as [WithLabelValues] wants them. *)
Definition count (counter : gmap (string * string) nat) (labels : string * string)
  : nat := default 0%nat (counter !! labels).

(** [vulnCounter.WithLabelValues(severity, type).Inc()] *)
Definition Inc (labels : string * string) (counter : gmap (string * string) nat)
  : gmap (string * string) nat :=
  <[labels := S (count counter labels)]> counter.

(** What the callbacks have done so far: the counter, the calls of
    [sendToSlack] and the answers to the messages, both oldest first. *)
Record received := mkReceived {
  vulnCounter : gmap (string * string) nat;
  sent : list (string * Vulnerability);
  answers : list answer
}.

Section Listener.

Variable up : string → string.
Variable unmarshal : string → option Vulnerability.

(** The callback on the message [data], with [c] the configuration that
    [processVulnerability] reads. *)
Definition receive (c : Config) (data : string) (st : received) : received :=
  match unmarshal data with
  | None => mkReceived (vulnCounter st) (sent st) (answers st ++ [Nack])%list
  | Some v =>
      mkReceived (Inc (Severity v, Type_ v) (vulnCounter st))
                 (sent st ++ option_list (processVulnerability up c v))%list
                 (answers st ++ [Ack])%list
  end.

(** The callback run on one message after another, each with the
    configuration in force when it is processed. *)
Definition receiveAll (deliveries : list (Config * string)) (st : received) : received :=
  foldl (λ st d, receive d.1 d.2 st) st deliveries.

(** The label values under which a message is counted. *)
Definition labelsOf (data : string) : option (string * string) :=
  (λ v, (Severity v, Type_ v)) <$> unmarshal data.

End Listener.

(** ** More on interleavings *)

(** The critical section of a reader: reads and calls, then the deferred
    [RUnlock] and the return. *)
Inductive readerBody : prog → Prop :=
| readerBody_Read f k : (∀ x, readerBody (k x)) → readerBody (Read f k)
| readerBody_Call e k : readerBody k → readerBody (Call e k)
| readerBody_RUnlock : readerBody (RUnlock Done).

(** The calls goroutine [i] has made, newest first. *)
Definition madeBy (i : nat) (l : list (nat * call)) : list call :=
  (filter (λ p, p.1 = i) l).*2.

(** Where the goroutine [i] of a finding or of [GET /config] stands: not
    started; in its critical section, where the calls made and those to come
    are the calls of the handler run by itself on the current configuration;
    or returned, the calls made being those of the handler run by itself on
    a configuration installed whole. *)
Definition tracked (up : string → string) (requests : list request)
    (r : request) (i : nat) (s : state) (t : thread) : Prop :=
  (code t = handler up r ∧ madeBy i (calls s) = [] ∧ modeOf s i = Free) ∨
  (i ∈ readers s ∧ readerBody (code t) ∧
   (reverse (madeBy i (calls s)) ++ (alone (code t) (cfg s)).1)%list
     = (alone (handler up r) (cfg s)).1) ∨
  (code t = Done ∧
   ∃ c, c ∈ installed requests ∧
        reverse (madeBy i (calls s)) = (alone (handler up r) c).1).

Definition isPost (r : request) : bool :=
  match r with PostConfig _ => true | _ => false end.

Definition tracking (up : string → string) (requests : list request) (s : state)
  : Prop :=
  ∀ i r, requests !! i = Some r →
         ∃ t, pool s !! i = Some t ∧ (isPost r = false → tracked up requests r i s t).

(** ** Concrete inputs *)

Definition finding (sev category : string) : Vulnerability :=
  mkVulnerability sev category "CVE-2024-0001" "openssl" "vm-1".

(** A form that resubmits the defaults with the OS threshold in lower case. *)
Definition formLowercase : gmap string string :=
  <["os_channel" := "#os-vulns"]> (<["os_severity" := "medium"]> (
  <["app_channel" := "#app-vulns"]> (<["app_severity" := "HIGH"]> ∅))).

(** A form with the OS fields only. *)
Definition formOSOnly : gmap string string :=
  <["os_channel" := "#sec"]> (<["os_severity" := "LOW"]> ∅).

(** A form that changes the OS rule and resubmits the APP rule. *)
Definition formKeepApp : gmap string string :=
  <["os_channel" := "#sec"]> (<["os_severity" := "LOW"]> (
  <["app_channel" := "#app-vulns"]> (<["app_severity" := "HIGH"]> ∅))).

(** The third scenario of the specification. *)
Definition formAppCritical : gmap string string :=
  <["os_channel" := "#os-vulns"]> (<["os_severity" := "MEDIUM"]> (
  <["app_channel" := "#app-vulns-v2"]> (<["app_severity" := "CRITICAL"]> ∅))).

(** Two requests on [/config] and a finding, and a schedule for them: the
    page is rendered, then the form is posted, then the finding is read up
    to its call of [sendToSlack]. *)
Definition requestsRace : list request :=
  [PostConfig formAppCritical; Finding (finding "CRITICAL" "APP"); GetConfig].

Definition scheduleRace : list nat :=
  [2; 2; 2; 2; 2; 2; 2; 0; 0; 0; 0; 0; 0; 0; 1; 1; 1]%nat.

(** The state a schedule leads to (the initial state if it cannot run). *)
Definition after (requests : list request) (sched : list nat) : state :=
  default (initial asciiOnly requests) (run sched (initial asciiOnly requests)).

(** The same schedule up to the call of [sendToSlack], and up to the return
    of the last handler. *)
Definition scheduleCalled : list nat := (scheduleRace ++ [1%nat])%list.

Definition scheduleAll : list nat := (scheduleRace ++ [1%nat; 1%nat])%list.

(** The goroutine [i] in the state a schedule leads to. *)
Definition threadAt (requests : list request) (sched : list nat) (i : nat) : thread :=
  default (mkThread Done []) (pool (after requests sched) !! i).

(** A decoder for the callback: a message decodes when it is a severity of
    at least three bytes, to an OS finding of this severity. *)
Definition unmarshalSeverity (data : string) : option Vulnerability :=
  if (3 <=? String.length data)%nat then Some (finding data "OS") else None.

(** ** The severity scale *)

Lemma rank_cases (label : string) :
  (label = "LOW" ∧ rank label = 1) ∨ (label = "MEDIUM" ∧ rank label = 2) ∨
  (label = "HIGH" ∧ rank label = 3) ∨ (label = "CRITICAL" ∧ rank label = 4) ∨
  (¬ known label ∧ rank label = 0).
Proof.
  destruct (decide (label = "LOW")) as [->|H1]; [left; by split|].
  destruct (decide (label = "MEDIUM")) as [->|H2]; [right; left; by split|].
  destruct (decide (label = "HIGH")) as [->|H3]; [do 2 right; left; by split|].
  destruct (decide (label = "CRITICAL")) as [->|H4]; [do 3 right; left; by split|].
  do 4 right. split.
  - unfold known. tauto.
  - unfold rank, index, severityLevels.
    rewrite !lookup_insert_ne by done. by rewrite lookup_empty.
Qed.

Lemma rank_unknown (label : string) : ¬ known label → rank label = 0.
Proof. destruct (rank_cases label) as [[-> _]|[[-> _]|[[-> _]|[[-> _]|[_ H]]]]];
  unfold known; tauto. Qed.

Lemma rank_known (label : string) : known label → 1 ≤ rank label.
Proof. intros [-> | [-> | [-> | ->]]]; by vm_compute. Qed.

Lemma rank_nonneg (label : string) : 0 ≤ rank label.
Proof. destruct (rank_cases label) as [[_ H]|[[_ H]|[[_ H]|[[_ H]|[_ H]]]]]; lia. Qed.

(** C4: the rank is a function on all strings; it maps LOW to 1, MEDIUM to
    2, HIGH to 3, CRITICAL to 4 and every other string, the empty one
    included, to 0. *)
Theorem rank_total_table :
  rank "LOW" = 1 ∧ rank "MEDIUM" = 2 ∧ rank "HIGH" = 3 ∧ rank "CRITICAL" = 4 ∧
  rank "" = 0 ∧
  (∀ label, ¬ known label → rank label = 0) ∧
  (∀ label, ∃ n, rank label = n ∧ 0 ≤ n ≤ 4).
Proof.
  repeat split; try reflexivity.
  - apply rank_unknown.
  - intros label. exists (rank label).
    destruct (rank_cases label) as [[_ H]|[[_ H]|[[_ H]|[[_ H]|[_ H]]]]]; lia.
Qed.

Lemma rank_total_table_witness : ¬ known "medium" ∧ rank "medium" = 0.
Proof.
  assert (H : ¬ known "medium") by (intros [?|[?|[?|?]]]; discriminate).
  split; [exact H|].
  exact (proj1 (proj2 (proj2 (proj2 (proj2 (proj2 rank_total_table))))) "medium" H).
Defined.

(** ** Uppercasing *)

Lemma upperByte_idempotent (c : ascii) : upperByte (upperByte c) = upperByte c.
Proof. destruct c as [[] [] [] [] [] [] [] []]; reflexivity. Qed.

Lemma isASCIIByte_upperByte (c : ascii) : isASCIIByte (upperByte c) = isASCIIByte c.
Proof. destruct c as [[] [] [] [] [] [] [] []]; reflexivity. Qed.

Lemma upperBytes_idempotent (s : string) : upperBytes (upperBytes s) = upperBytes s.
Proof. induction s as [|c s IH]; simpl; [done|]. by rewrite upperByte_idempotent, IH. Qed.

Lemma isASCII_upperBytes (s : string) : isASCII (upperBytes s) = isASCII s.
Proof. induction s as [|c s IH]; simpl; [done|]. by rewrite isASCIIByte_upperByte, IH. Qed.

Section Properties.

Variable up : string → string.

(** On a string of ASCII bytes uppercasing twice is uppercasing once; on
    another it is so when uppercasing leaves alone the string the Unicode
    mapping returns for it. *)
Lemma ToUpper_idempotent (s : string) :
  (isASCII s = false → ToUpper up (up s) = up s) →
  ToUpper up (ToUpper up s) = ToUpper up s.
Proof.
  intros Hup. unfold ToUpper at 2 3. destruct (isASCII s) eqn:Hs.
  - unfold ToUpper. by rewrite isASCII_upperBytes, Hs, upperBytes_idempotent.
  - by apply Hup.
Qed.

(** ** The decision *)

Lemma processVulnerability_OS c v :
  Type_ v = "OS" →
  processVulnerability up c v =
    if rank (OSMinSeverity c) <=? rank (ToUpper up (Severity v))
    then Some (OSChannelName c, v) else None.
Proof. intros H. unfold processVulnerability. rewrite H. simpl. by case_match. Qed.

Lemma processVulnerability_APP c v :
  Type_ v = "APP" →
  processVulnerability up c v =
    if rank (AppMinSeverity c) <=? rank (ToUpper up (Severity v))
    then Some (AppChannelName c, v) else None.
Proof. intros H. unfold processVulnerability. rewrite H. simpl. by case_match. Qed.

Lemma processVulnerability_other c v :
  Type_ v ≠ "OS" → Type_ v ≠ "APP" → processVulnerability up c v = None.
Proof.
  intros H1 H2. unfold processVulnerability.
  apply String.eqb_neq in H1, H2. by rewrite H1, H2.
Qed.

Lemma ruleOf_cases c category ch m :
  ruleOf c category = Some (ch, m) →
  (category = "OS" ∧ ch = OSChannelName c ∧ m = OSMinSeverity c) ∨
  (category = "APP" ∧ ch = AppChannelName c ∧ m = AppMinSeverity c).
Proof.
  unfold ruleOf. destruct (String.eqb_spec category "OS") as [->|_].
  { intros [= <- <-]. by left. }
  destruct (String.eqb_spec category "APP") as [->|_]; [|done].
  intros [= <- <-]. by right.
Qed.

(** With a rule for its category, a finding is sent to the rule's channel
    exactly when its rank reaches the rule's. *)
Lemma processVulnerability_rule c v ch m :
  ruleOf c (Type_ v) = Some (ch, m) →
  processVulnerability up c v =
    if rank m <=? rank (ToUpper up (Severity v)) then Some (ch, v) else None.
Proof.
  intros H. apply ruleOf_cases in H as [(Ht & -> & ->)|(Ht & -> & ->)].
  - by apply processVulnerability_OS.
  - by apply processVulnerability_APP.
Qed.

Lemma ruleOf_None c category :
  ruleOf c category = None ↔ category ≠ "OS" ∧ category ≠ "APP".
Proof.
  unfold ruleOf. destruct (String.eqb_spec category "OS") as [->|H1].
  { split; [done|]. intros [? _]. done. }
  destruct (String.eqb_spec category "APP") as [->|H2].
  { split; [done|]. intros [_ ?]. done. }
  done.
Qed.

(** C1, amended: a finding whose uppercased severity is none of LOW,
    MEDIUM, HIGH, CRITICAL is not dispatched, whatever its category,
    provided the minSeverity configured for that category is one of the
    four labels. *)
Theorem unknown_severity_no_dispatch c v :
  ¬ known (ToUpper up (Severity v)) →
  (∀ ch m, ruleOf c (Type_ v) = Some (ch, m) → known m) →
  processVulnerability up c v = None.
Proof.
  intros Hsev Hthr. destruct (ruleOf c (Type_ v)) as [[ch m]|] eqn:Hrule.
  - rewrite (processVulnerability_rule c v ch m Hrule).
    apply rank_unknown in Hsev. specialize (Hthr ch m eq_refl).
    apply rank_known in Hthr. rewrite Hsev.
    destruct (Z.leb_spec (rank m) 0); [lia|done].
  - apply ruleOf_None in Hrule as [H1 H2]. by apply processVulnerability_other.
Qed.

(** C2: for a finding of a category with rule (channel, minSeverity),
    minSeverity a known label, the finding is dispatched to that channel if
    and only if its rank is at least the rank of minSeverity; at equal rank
    it is dispatched, at lower rank it is not. *)
Theorem threshold_inclusive c v ch m :
  ruleOf c (Type_ v) = Some (ch, m) →
  known m →
  (processVulnerability up c v = Some (ch, v) ↔
     rank m ≤ rank (ToUpper up (Severity v))) ∧
  (rank (ToUpper up (Severity v)) = rank m →
     processVulnerability up c v = Some (ch, v)) ∧
  (rank (ToUpper up (Severity v)) < rank m →
     processVulnerability up c v = None).
Proof.
  intros Hrule _. rewrite (processVulnerability_rule c v ch m Hrule).
  destruct (Z.leb_spec (rank m) (rank (ToUpper up (Severity v)))) as [Hle|Hlt].
  - repeat split; try done. lia.
  - repeat split; try done; lia.
Qed.

(** C5: a finding whose category is neither OS nor APP is not dispatched,
    whatever its severity and whatever the configuration. *)
Theorem unknown_category_no_dispatch c v :
  Type_ v ≠ "OS" → Type_ v ≠ "APP" →
  processVulnerability up c v = None ∧ decision up c v = None.
Proof.
  intros H1 H2. unfold decision.
  by rewrite (processVulnerability_other c v H1 H2).
Qed.

(** A threshold of rank 0 lets every finding of the category through. *)
Lemma processVulnerability_rank0 c v ch m :
  ruleOf c (Type_ v) = Some (ch, m) → rank m = 0 →
  processVulnerability up c v = Some (ch, v).
Proof.
  intros Hrule Hm. rewrite (processVulnerability_rule c v ch m Hrule), Hm.
  pose proof (rank_nonneg (ToUpper up (Severity v))).
  destruct (Z.leb_spec 0 (rank (ToUpper up (Severity v)))); [done|lia].
Qed.

(** C8: when the minSeverity configured for a category is not exactly one
    of LOW, MEDIUM, HIGH, CRITICAL, every finding of that category is
    dispatched, also one whose own severity is unrecognised. *)
Theorem unknown_threshold_always_dispatches c v ch m :
  ruleOf c (Type_ v) = Some (ch, m) →
  ¬ known m →
  processVulnerability up c v = Some (ch, v).
Proof.
  intros Hrule Hm. apply (processVulnerability_rank0 c v ch m Hrule).
  by apply rank_unknown.
Qed.

(** The same after a form without the field [os_severity] is posted. *)
Lemma absent_threshold_field form c v :
  form !! "os_severity" = None → Type_ v = "OS" →
  processVulnerability up (postConfig form c) v = Some (PostForm form "os_channel", v).
Proof.
  intros Hf Ht. apply (processVulnerability_rank0 _ v _ "").
  - rewrite Ht. cbn. unfold PostForm. by rewrite Hf.
  - reflexivity.
Qed.

(** C9: uppercasing the severity of a finding does not change the decision
    (for a severity with a byte above 0x7f, given that uppercasing leaves
    alone the string the Unicode mapping returns for it); a finding whose
    category spells OS or APP in another casing is not dispatched. *)
Theorem severity_case_insensitive_category_case_sensitive c v :
  (isASCII (Severity v) = false →
   ToUpper up (up (Severity v)) = up (Severity v)) →
  decision up c (withSeverity (ToUpper up (Severity v)) v) = decision up c v ∧
  (∀ v', upperBytes (Type_ v') = "OS" ∨ upperBytes (Type_ v') = "APP" →
         Type_ v' ≠ "OS" → Type_ v' ≠ "APP" →
         processVulnerability up c v' = None).
Proof.
  intros Hup. split.
  - unfold decision, processVulnerability, withSeverity. simpl.
    rewrite (ToUpper_idempotent _ Hup).
    by repeat case_match.
  - intros v' _ H1 H2. by apply processVulnerability_other.
Qed.

(** C10: two findings with the same severity and the same category get the
    same decision under the same configuration, whatever their description,
    package and resource. *)
Theorem decision_ignores_display_fields c v1 v2 :
  Severity v1 = Severity v2 → Type_ v1 = Type_ v2 →
  decision up c v1 = decision up c v2.
Proof.
  intros Hs Ht. unfold decision, processVulnerability. rewrite Hs, Ht.
  by repeat case_match.
Qed.

End Properties.

(** ** Replacing the configuration *)

(** C3, amended: a replacement installs at once, for both categories, the
    (channel, minSeverity) pairs of the posted form, an absent field reading
    as the empty string; the rule of a category stays as it was only when
    the form resubmits it. *)
Theorem postConfig_installs_form form c :
  postConfig form c = formConfig form ∧
  (∀ category, ruleOf (postConfig form c) category = formRule form category) ∧
  (∀ category, formRule form category = ruleOf c category →
               ruleOf (postConfig form c) category = ruleOf c category).
Proof.
  split; [reflexivity|]. split.
  - intros category. unfold ruleOf, formRule. by repeat case_match.
  - intros category <-. unfold ruleOf, formRule. by repeat case_match.
Qed.

Lemma postConfig_installs_form_witness :
  ruleOf (postConfig formKeepApp config) "OS" = Some ("#sec", "LOW") ∧
  ruleOf (postConfig formKeepApp config) "APP" = ruleOf config "APP".
Proof.
  split.
  - exact (proj1 (proj2 (postConfig_installs_form formKeepApp config)) "OS").
  - apply (proj2 (proj2 (postConfig_installs_form formKeepApp config)) "APP").
    reflexivity.
Defined.

(** C3 as stated fails: posting the new OS rule alone empties the APP rule. *)
Lemma replace_touches_other_category :
  formRule formOSOnly "OS" = Some ("#sec", "LOW") ∧
  ruleOf (postConfig formOSOnly config) "OS" = Some ("#sec", "LOW") ∧
  "APP" ≠ "OS" ∧
  ruleOf config "APP" = Some ("#app-vulns", "HIGH") ∧
  ruleOf (postConfig formOSOnly config) "APP" = Some ("", "") ∧
  ruleOf (postConfig formOSOnly config) "APP" ≠ ruleOf config "APP".
Proof. repeat split; done. Qed.

(** ** The decision at concrete inputs *)

Lemma unknown_bogus : ¬ known (ToUpper asciiOnly "bogus").
Proof. intros [H|[H|[H|H]]]; discriminate H. Qed.

Lemma unknown_medium_lowercase : ¬ known "medium".
Proof. intros [H|[H|[H|H]]]; discriminate H. Qed.

Lemma unknown_severity_no_dispatch_witness :
  processVulnerability asciiOnly config (finding "bogus" "OS") = None.
Proof.
  apply unknown_severity_no_dispatch; [exact unknown_bogus|].
  intros ch m [= <- <-]. right. by left.
Defined.

(** C1 as stated fails: after the OS threshold is posted in lower case, an
    OS finding of unknown severity is dispatched. *)
Lemma unknown_severity_dispatched :
  ¬ known (ToUpper asciiOnly (Severity (finding "bogus" "OS"))) ∧
  postConfig formLowercase config = mkConfig "#os-vulns" "medium" "#app-vulns" "HIGH" ∧
  processVulnerability asciiOnly (postConfig formLowercase config) (finding "bogus" "OS")
    = Some ("#os-vulns", finding "bogus" "OS").
Proof. split; [exact unknown_bogus|]. split; reflexivity. Qed.

Lemma threshold_inclusive_witness :
  processVulnerability asciiOnly config (finding "medium" "OS")
    = Some ("#os-vulns", finding "medium" "OS").
Proof.
  apply (proj1 (proj2 (threshold_inclusive asciiOnly config (finding "medium" "OS")
                         "#os-vulns" "MEDIUM" eq_refl (or_intror (or_introl eq_refl))))).
  reflexivity.
Defined.

Lemma unknown_category_no_dispatch_witness :
  processVulnerability asciiOnly config (finding "HIGH" "NETWORK") = None.
Proof.
  apply (proj1 (unknown_category_no_dispatch asciiOnly config (finding "HIGH" "NETWORK")
                  ltac:(discriminate) ltac:(discriminate))).
Defined.

Lemma unknown_threshold_always_dispatches_witness :
  processVulnerability asciiOnly (postConfig formLowercase config) (finding "bogus" "OS")
    = Some ("#os-vulns", finding "bogus" "OS").
Proof.
  apply (unknown_threshold_always_dispatches asciiOnly (postConfig formLowercase config)
           (finding "bogus" "OS") "#os-vulns" "medium" eq_refl unknown_medium_lowercase).
Defined.

Lemma asciiOnly_uppercased (s : string) :
  isASCII s = false → ToUpper asciiOnly (asciiOnly s) = asciiOnly s.
Proof. intros H. unfold ToUpper, asciiOnly. by rewrite H. Qed.

Lemma severity_case_insensitive_category_case_sensitive_witness :
  decision asciiOnly config (withSeverity "HIGH" (finding "high" "APP"))
    = decision asciiOnly config (finding "high" "APP") ∧
  processVulnerability asciiOnly config (finding "CRITICAL" "os") = None.
Proof.
  pose proof (severity_case_insensitive_category_case_sensitive asciiOnly config
                (finding "high" "APP") (asciiOnly_uppercased _)) as [H1 H2].
  split; [exact H1|].
  apply H2; [by left|discriminate|discriminate].
Defined.

Lemma decision_ignores_display_fields_witness :
  decision asciiOnly config (mkVulnerability "high" "APP" "a" "b" "c")
    = decision asciiOnly config (mkVulnerability "high" "APP" "x" "y" "z").
Proof. apply decision_ignores_display_fields; reflexivity. Defined.

(** The scenarios of the specification. *)
Example scenarios :
  decision asciiOnly config (finding "low" "OS") = None ∧
  decision asciiOnly config (finding "medium" "OS") = Some "#os-vulns" ∧
  decision asciiOnly config (finding "HIGH" "APP") = Some "#app-vulns" ∧
  decision asciiOnly config (finding "medium" "APP") = None ∧
  decision asciiOnly (postConfig formAppCritical config) (finding "HIGH" "APP") = None ∧
  decision asciiOnly (postConfig formAppCritical config) (finding "CRITICAL" "APP")
    = Some "#app-vulns-v2" ∧
  decision asciiOnly config (finding "unknown" "OS") = None ∧
  decision asciiOnly config (finding "HIGH" "NETWORK") = None.
Proof. repeat split; reflexivity. Qed.

(** ** Interleavings *)

Lemma agrees_nil c : agrees [] c.
Proof. intros f x H. by apply elem_of_nil in H. Qed.

Lemma agrees_cons f l c : agrees l c → agrees ((f, getField f c) :: l) c.
Proof.
  intros Hl f' x H. apply elem_of_cons in H as [[= -> ->]|H]; [done|by apply Hl].
Qed.

Lemma lookup_update (p : list thread) i j t t' u :
  p !! i = Some t → <[i := t']> p !! j = Some u →
  (j = i ∧ u = t') ∨ (j ≠ i ∧ p !! j = Some u).
Proof.
  intros Hi Hj. destruct (decide (j = i)) as [->|Hne].
  - left. split; [done|]. apply lookup_lt_Some in Hi.
    rewrite list_lookup_insert_eq in Hj by done. congruence.
  - right. split; [done|]. by rewrite list_lookup_insert_ne in Hj.
Qed.

Lemma lookup_updated (p : list thread) i t t' :
  p !! i = Some t → <[i := t']> p !! i = Some t'.
Proof. intros Hi. apply lookup_lt_Some in Hi. by apply list_lookup_insert_eq. Qed.

Lemma modeOf_Reading s i : modeOf s i = Reading → writer s ≠ Some i ∧ i ∈ readers s.
Proof. unfold modeOf. by repeat case_decide. Qed.

Lemma modeOf_Writing s i : modeOf s i = Writing → writer s = Some i.
Proof. unfold modeOf. by repeat case_decide. Qed.

Lemma modeOf_unchanged s s' j :
  (writer s' = Some j ↔ writer s = Some j) → (j ∈ readers s' ↔ j ∈ readers s) →
  modeOf s' j = modeOf s j.
Proof. unfold modeOf. intros Hw Hr. repeat case_decide; try done; tauto. Qed.

Lemma modeOf_is_Free s i : writer s ≠ Some i → i ∉ readers s → modeOf s i = Free.
Proof. unfold modeOf. intros. by repeat case_decide. Qed.

Lemma modeOf_is_Reading s i : writer s ≠ Some i → i ∈ readers s → modeOf s i = Reading.
Proof. unfold modeOf. intros. by repeat case_decide. Qed.

Lemma modeOf_is_Writing s i : writer s = Some i → modeOf s i = Writing.
Proof. unfold modeOf. intros. by repeat case_decide. Qed.

Lemma elem_of_added (i j : nat) (X : gset nat) : j ≠ i → j ∈ {[i]} ∪ X ↔ j ∈ X.
Proof. rewrite elem_of_union, elem_of_singleton. tauto. Qed.

Lemma elem_of_removed (i j : nat) (X : gset nat) : j ≠ i → j ∈ X ∖ {[i]} ↔ j ∈ X.
Proof. rewrite elem_of_difference, elem_of_singleton. tauto. Qed.

Lemma not_elem_of_removed (i : nat) (X : gset nat) : i ∉ X ∖ {[i]}.
Proof. rewrite elem_of_difference, elem_of_singleton. tauto. Qed.

Section Discipline.

Variable S : Config → Prop.

(** With a reader in, no writer is. *)
Lemma reader_excludes_writer s i :
  invariant S s → i ∈ readers s → writer s = None.
Proof.
  intros Inv Hr. destruct (writer s) as [j|] eqn:Hj; [|done].
  rewrite (inv_excl S s Inv j Hj) in Hr. by apply not_elem_of_empty in Hr.
Qed.

Ltac split_lookup Hi Hj j u :=
  intros j u Hj;
  destruct (lookup_update _ _ _ _ _ _ Hi Hj) as [[-> ->]|[Hne Hju]]; simpl.

(** The mode of the goroutines that did not step. *)
Ltac other_mode s j :=
  replace (modeOf _ j) with (modeOf s j)
    by (symmetry; apply modeOf_unchanged; simpl;
        rewrite ?elem_of_added, ?elem_of_removed by done;
        (done || (split; congruence))).

Lemma invariant_step s i s' : invariant S s → stepf i s = Some s' → invariant S s'.
Proof.
  intros Inv Hstep. unfold stepf in Hstep.
  destruct (pool s !! i) as [t|] eqn:Hi; simpl in Hstep; [|done].
  pose proof (inv_follows S s Inv i t Hi) as Hf.
  pose proof (reader_excludes_writer s i Inv) as Hrw.
  destruct Inv as [Ifol Iexcl Iwr Iidle Iread Ilog].
  destruct (code t) as [|k|k|k|k|f k|f x k|e k] eqn:Hc.
  - done.
  - (* RLock *)
    case_decide as Hw; [|done]. injection Hstep as <-.
    inversion Hf as [|k' Hk Hm| | | | | | |]; subst.
    split; simpl.
    + split_lookup Hi Hj j u.
      * rewrite modeOf_is_Reading; [done|simpl; congruence|simpl].
        apply elem_of_union. left. by apply elem_of_singleton.
      * other_mode s j. by apply Ifol.
    + intros j Hj. congruence.
    + intros j Hj. congruence.
    + done.
    + split_lookup Hi Hj j u.
      * intros _. apply agrees_nil.
      * intros Hin. apply (Iread j u); [done|]. by apply elem_of_added in Hin.
    + split_lookup Hi Hj j u.
      * exists (cfg s). split; [by apply Iidle|apply agrees_nil].
      * by eapply Ilog.
  - (* RUnlock *)
    case_decide as Hr; [|done]. injection Hstep as <-.
    inversion Hf as [| | | | |k' Hk Hm| | |]; subst.
    specialize (Hrw Hr).
    split; simpl.
    + split_lookup Hi Hj j u.
      * rewrite modeOf_is_Free; [done|simpl; congruence|simpl].
        apply not_elem_of_removed.
      * other_mode s j. by apply Ifol.
    + intros j Hj. congruence.
    + intros j Hj. congruence.
    + done.
    + split_lookup Hi Hj j u.
      * intros Hin. by apply not_elem_of_removed in Hin.
      * intros Hin. apply (Iread j u); [done|]. by apply elem_of_removed in Hin.
    + split_lookup Hi Hj j u; by eapply Ilog.
  - (* Lock *)
    case_decide as Hw; [|done]. destruct Hw as [Hw Hr]. injection Hstep as <-.
    inversion Hf as [| |k' Hk HS Hm| | | | | |]; subst.
    split; simpl.
    + split_lookup Hi Hj j u.
      * by rewrite modeOf_is_Writing.
      * other_mode s j. by apply Ifol.
    + done.
    + intros j [= <-]. eexists. split; [by eapply lookup_updated|]. simpl. apply HS.
    + done.
    + intros j u _ Hin. rewrite Hr in Hin. by apply not_elem_of_empty in Hin.
    + split_lookup Hi Hj j u; by eapply Ilog.
  - (* Unlock *)
    case_decide as Hw; [|done]. injection Hstep as <-.
    inversion Hf as [| | | | | | | |k' Hk Hm]; subst.
    pose proof (Iexcl _ Hw) as Hr.
    split; simpl.
    + split_lookup Hi Hj j u.
      * rewrite modeOf_is_Free; [done|done|simpl].
        rewrite Hr. apply not_elem_of_empty.
      * other_mode s j. by apply Ifol.
    + done.
    + done.
    + intros _. destruct (Iwr _ Hw) as (t' & Ht' & HS).
      rewrite Hi in Ht'. injection Ht' as <-. by rewrite Hc in HS.
    + intros j u _ Hin. rewrite Hr in Hin. by apply not_elem_of_empty in Hin.
    + split_lookup Hi Hj j u; by eapply Ilog.
  - (* Read *)
    injection Hstep as <-.
    inversion Hf as [| | |f' k' Hk Hm| | | | |]; subst.
    symmetry in Hm. apply modeOf_Reading in Hm as [Hnw Hr].
    specialize (Hrw Hr).
    split; simpl.
    + split_lookup Hi Hj j u.
      * rewrite modeOf_is_Reading by done. apply Hk.
      * other_mode s j. by apply Ifol.
    + intros j Hj. congruence.
    + intros j Hj. congruence.
    + done.
    + split_lookup Hi Hj j u.
      * intros _. apply agrees_cons. by apply (Iread i t).
      * by apply (Iread j u).
    + split_lookup Hi Hj j u.
      * exists (cfg s). split; [by apply Iidle|]. apply agrees_cons. by apply (Iread i t).
      * by eapply Ilog.
  - (* Write *)
    injection Hstep as <-.
    inversion Hf as [| | | | | |f' x' k' Hk Hm| |]; subst.
    symmetry in Hm. apply modeOf_Writing in Hm.
    pose proof (Iexcl _ Hm) as Hr.
    split; simpl.
    + split_lookup Hi Hj j u.
      * by rewrite modeOf_is_Writing.
      * other_mode s j. by apply Ifol.
    + done.
    + intros j Hj. destruct (Iwr _ Hj) as (t' & Ht' & HS).
      assert (j = i) as -> by congruence.
      rewrite Hi in Ht'. injection Ht' as <-. rewrite Hc in HS.
      eexists. split; [by eapply lookup_updated|]. done.
    + congruence.
    + intros j u _ Hin. rewrite Hr in Hin. by apply not_elem_of_empty in Hin.
    + split_lookup Hi Hj j u; by eapply Ilog.
  - (* Call *)
    injection Hstep as <-.
    assert (Hk : follows S (modeOf s i) k) by (inversion Hf; subst; done).
    split; simpl.
    + split_lookup Hi Hj j u.
      * by other_mode s i.
      * other_mode s j. by apply Ifol.
    + done.
    + intros j Hj. destruct (Iwr _ Hj) as (t' & Ht' & HS).
      destruct (decide (j = i)) as [->|Hne].
      * rewrite Hi in Ht'. injection Ht' as <-. rewrite Hc in HS.
        eexists. split; [by eapply lookup_updated|]. done.
      * exists t'. split; [by rewrite list_lookup_insert_ne|done].
    + done.
    + split_lookup Hi Hj j u.
      * by apply (Iread i t).
      * by apply (Iread j u).
    + split_lookup Hi Hj j u; by eapply Ilog.
Qed.

End Discipline.

Section Interleavings.

Variable up : string → string.

Lemma sendAndReturn_follows S chan v : follows S Reading (sendAndReturn chan v).
Proof. repeat constructor. done. Qed.

Lemma elseIfApp_follows S v severityRank : follows S Reading (elseIfApp v severityRank).
Proof.
  unfold elseIfApp. case_match; [|repeat constructor].
  constructor. intros m. case_match; [apply sendAndReturn_follows|repeat constructor].
Qed.

Lemma handler_follows S r :
  (∀ form, r = PostConfig form → S (formConfig form)) → follows S Free (handler up r).
Proof.
  intros HS. destruct r as [v| |form]; simpl.
  - constructor. simpl. case_match; [|apply elseIfApp_follows].
    constructor. intros m. case_match; [apply sendAndReturn_follows|apply elseIfApp_follows].
  - repeat (constructor; try done; try intros ?).
  - constructor; [repeat constructor|]. intros c. by apply HS.
Qed.

Lemma installed_config requests : config ∈ installed requests.
Proof.
  induction requests as [|[v| |form] rs IH]; simpl; try done.
  - by apply list_elem_of_singleton.
  - apply elem_of_cons. by right.
Qed.

Lemma installed_post requests form :
  PostConfig form ∈ requests → formConfig form ∈ installed requests.
Proof.
  induction requests as [|r rs IH]; intros H; [by apply elem_of_nil in H|].
  apply elem_of_cons in H as [<-|H]; simpl; [apply elem_of_cons; by left|].
  destruct r; auto. apply elem_of_cons. right. auto.
Qed.

Lemma invariant_initial requests :
  invariant (λ c, c ∈ installed requests) (initial up requests).
Proof.
  split; simpl; try done.
  - intros i t Hi. apply list_lookup_fmap_Some in Hi as (r & -> & Hr). simpl.
    rewrite modeOf_is_Free; [|done|apply not_elem_of_empty].
    apply handler_follows. intros form ->. apply installed_post.
    by eapply list_elem_of_lookup_2.
  - intros _. apply installed_config.
  - intros i t Hi. apply list_lookup_fmap_Some in Hi as (r & -> & Hr). simpl.
    exists config. split; [apply installed_config|apply agrees_nil].
Qed.

Lemma reachable_invariant requests s :
  reachable up requests s → invariant (λ c, c ∈ installed requests) s.
Proof.
  induction 1 as [|s i s' _ IH Hstep]; [apply invariant_initial|].
  by eapply invariant_step.
Qed.

Lemma run_reachable requests sched s s' :
  reachable up requests s → run sched s = Some s' → reachable up requests s'.
Proof.
  revert s. induction sched as [|i sched IH]; intros s Hs Hrun; simpl in Hrun.
  - by injection Hrun as <-.
  - destruct (stepf i s) as [s1|] eqn:Hstep; simpl in Hrun; [|done].
    apply (IH s1); [by eapply reachable_step|done].
Qed.

(** C6: in every interleaving of the handlers, the values a goroutine has
    read under the read lock are the fields of one configuration installed
    whole, the defaults or the form of one POST; so the (channel,
    minSeverity) pair read for a category is the rule of that category in
    that configuration. *)
Theorem no_torn_read requests s i t :
  reachable up requests s →
  pool s !! i = Some t →
  (∃ c, c ∈ installed requests ∧ agrees (log t) c) ∧
  (∀ ch m, (FOSChannelName, ch) ∈ log t → (FOSMinSeverity, m) ∈ log t →
           ∃ c, c ∈ installed requests ∧ ruleOf c "OS" = Some (ch, m)) ∧
  (∀ ch m, (FAppChannelName, ch) ∈ log t → (FAppMinSeverity, m) ∈ log t →
           ∃ c, c ∈ installed requests ∧ ruleOf c "APP" = Some (ch, m)).
Proof.
  intros Hs Hi. apply reachable_invariant in Hs.
  destruct (inv_log _ s Hs i t Hi) as (c & Hc & Hlog).
  split; [by exists c|].
  split; intros ch m Hch Hm; exists c; (split; [done|]);
    apply Hlog in Hch, Hm; simpl in Hch, Hm; by subst.
Qed.

End Interleavings.

(** ** The program and the function *)

(** Run by itself, the program of [processVulnerability] makes the call the
    function returns, and the program of [POST /config] leaves the
    configuration [postConfig] computes. *)
Lemma processVulnerabilityHandler_alone up v c :
  (alone (processVulnerabilityHandler up v) c).1 =
    match processVulnerability up c v with
    | Some (channel, v') => [SendToSlack channel v']
    | None => []
    end.
Proof.
  unfold processVulnerabilityHandler, processVulnerability, elseIfApp. simpl.
  destruct (String.eqb (Type_ v) "OS"); simpl.
  - destruct (rank (OSMinSeverity c) <=? _); simpl; [done|].
    destruct (String.eqb (Type_ v) "APP"); simpl; [|done].
    by destruct (rank (AppMinSeverity c) <=? _).
  - destruct (String.eqb (Type_ v) "APP"); simpl; [|done].
    by destruct (rank (AppMinSeverity c) <=? _).
Qed.

Lemma postConfigHandler_alone form c :
  alone (postConfigHandler form) c = ([Redirect], postConfig form c).
Proof. reflexivity. Qed.

(** ** An interleaving *)

Lemma scheduleRace_runs :
  run scheduleRace (initial asciiOnly requestsRace)
    = Some (after requestsRace scheduleRace).
Proof. vm_compute. reflexivity. Qed.

Lemma after_reachable requests sched :
  is_Some (run sched (initial asciiOnly requests)) →
  reachable asciiOnly requests (after requests sched).
Proof.
  intros [s Hs]. unfold after. rewrite Hs. simpl.
  eapply run_reachable; [apply reachable_initial|done].
Qed.

Lemma no_torn_read_witness :
  ∃ c, c ∈ installed requestsRace ∧ ruleOf c "APP" = Some ("#app-vulns-v2", "CRITICAL").
Proof.
  refine (proj2 (proj2 (no_torn_read asciiOnly requestsRace
            (after requestsRace scheduleRace) 1%nat
            (mkThread (Call (SendToSlack "#app-vulns-v2" (finding "CRITICAL" "APP"))
                            (RUnlock Done))
                      [(FAppChannelName, "#app-vulns-v2"); (FAppMinSeverity, "CRITICAL")])
            _ _)) "#app-vulns-v2" "CRITICAL" _ _).
  - apply after_reachable. rewrite scheduleRace_runs. by eexists.
  - vm_compute. reflexivity.
  - simpl. apply elem_of_cons. by left.
  - simpl. apply elem_of_cons. right. apply elem_of_cons. by left.
Defined.

(** C7 as stated fails: with one HIGH finding of category OS, after the lock
    is taken and the two fields are read the goroutine is at its call of
    [sendToSlack] with the read lock held; it makes the call and holds the
    lock still, and lets it go with its last step only. *)
Lemma dispatch_under_read_lock :
  let requests := [Finding (finding "HIGH" "OS")] in
  (code <$> pool (after requests [0; 0; 0]%nat) !! 0%nat
     = Some (Call (SendToSlack "#os-vulns" (finding "HIGH" "OS")) (RUnlock Done))) ∧
  is_Some (run [0; 0; 0; 0; 0]%nat (initial asciiOnly requests)) ∧
  0%nat ∈ readers (after requests [0; 0; 0]%nat) ∧
  calls (after requests [0; 0; 0; 0]%nat)
    = [(0%nat, SendToSlack "#os-vulns" (finding "HIGH" "OS"))] ∧
  0%nat ∈ readers (after requests [0; 0; 0; 0]%nat) ∧
  readers (after requests [0; 0; 0; 0; 0]%nat) = ∅.
Proof.
  simpl. split; [vm_compute; reflexivity|].
  split; [vm_compute; by eexists|].
  repeat split; vm_compute; reflexivity.
Qed.

(** ** More on the decision *)

Lemma rank_le_4 (label : string) : rank label ≤ 4.
Proof. destruct (rank_cases label) as [[_ H]|[[_ H]|[[_ H]|[[_ H]|[_ H]]]]]; lia. Qed.

Section MoreRouting.

Variable up : string → string.

(** X1: no configuration mutes a CRITICAL finding of category OS or APP: it
    is sent to the channel of its category whatever the two thresholds are. *)
Theorem critical_never_muted c v :
  ToUpper up (Severity v) = "CRITICAL" →
  Type_ v = "OS" ∨ Type_ v = "APP" →
  ∃ ch m, ruleOf c (Type_ v) = Some (ch, m) ∧
          processVulnerability up c v = Some (ch, v).
Proof.
  intros Hsev Hty.
  assert (∃ ch m, ruleOf c (Type_ v) = Some (ch, m)) as (ch & m & Hrule).
  { destruct Hty as [-> | ->]; simpl; eauto. }
  exists ch, m. split; [done|].
  rewrite (processVulnerability_rule up c v ch m Hrule), Hsev.
  pose proof (rank_le_4 m). change (rank "CRITICAL") with 4.
  destruct (Z.leb_spec (rank m) 4); [done|lia].
Qed.

(** X2: a dispatch is always of the finding as received, to the channel of
    the rule of its own category, and the rank of its severity reaches the
    threshold of that rule. *)
Theorem dispatch_sound c v ch v' :
  processVulnerability up c v = Some (ch, v') →
  v' = v ∧
  ∃ m, ruleOf c (Type_ v) = Some (ch, m) ∧ rank m ≤ rank (ToUpper up (Severity v)).
Proof.
  intros H. destruct (ruleOf c (Type_ v)) as [[ch0 m]|] eqn:Hrule.
  - rewrite (processVulnerability_rule up c v ch0 m Hrule) in H.
    destruct (Z.leb_spec (rank m) (rank (ToUpper up (Severity v)))); [|done].
    injection H as <- <-. split; [done|]. by exists m.
  - apply ruleOf_None in Hrule as [H1 H2].
    by rewrite (processVulnerability_other up c v H1 H2) in H.
Qed.

(** X3: the decision is monotone in the severity: when a finding is
    dispatched, a finding of the same category and of no lower rank is
    dispatched to the same channel. *)
Theorem dispatch_monotone c v v' ch :
  processVulnerability up c v = Some (ch, v) →
  Type_ v' = Type_ v →
  rank (ToUpper up (Severity v)) ≤ rank (ToUpper up (Severity v')) →
  processVulnerability up c v' = Some (ch, v').
Proof.
  intros H Hty Hle. destruct (ruleOf c (Type_ v)) as [[ch0 m]|] eqn:Hrule.
  - rewrite (processVulnerability_rule up c v ch0 m Hrule) in H.
    destruct (Z.leb_spec (rank m) (rank (ToUpper up (Severity v)))); [|done].
    injection H as <-. rewrite <- Hty in Hrule.
    rewrite (processVulnerability_rule up c v' ch0 m Hrule).
    destruct (Z.leb_spec (rank m) (rank (ToUpper up (Severity v')))); [done|lia].
  - apply ruleOf_None in Hrule as [H1 H2].
    by rewrite (processVulnerability_other up c v H1 H2) in H.
Qed.

(** X4: the decision for a finding depends on the rule of its own category
    only: two configurations with the same rule for it decide alike. *)
Theorem decision_own_rule c c' v :
  ruleOf c (Type_ v) = ruleOf c' (Type_ v) →
  processVulnerability up c v = processVulnerability up c' v.
Proof.
  intros H. destruct (ruleOf c (Type_ v)) as [[ch m]|] eqn:Hrule.
  - rewrite (processVulnerability_rule up c v ch m Hrule).
    by rewrite (processVulnerability_rule up c' v ch m).
  - symmetry in H. apply ruleOf_None in Hrule as [H1 H2].
    by rewrite !processVulnerability_other.
Qed.

End MoreRouting.

(** ** The subscription callback *)

Section ListenerFacts.

Variable up : string → string.
Variable unmarshal : string → option Vulnerability.

Lemma count_Inc labels labels' counter :
  count (Inc labels counter) labels' =
    if decide (labels = labels') then S (count counter labels')
    else count counter labels'.
Proof.
  unfold Inc, count at 1. case_decide as H.
  - subst. by rewrite lookup_insert_eq.
  - by rewrite lookup_insert_ne.
Qed.

(** X5: the counter of a pair of label values grows by the number of
    messages that decode to a finding with exactly that severity and that
    type, as received; whether and where a finding is dispatched, and the
    configuration, play no part, and a message that does not decode is not
    counted. *)
Theorem counter_counts_decoded deliveries st labels :
  count (vulnCounter (receiveAll up unmarshal deliveries st)) labels =
    (count (vulnCounter st) labels +
     length (filter (λ d, labelsOf unmarshal d.2 = Some labels) deliveries))%nat.
Proof.
  revert st. induction deliveries as [|[c data] ds IH]; intros st; simpl.
  { by rewrite Nat.add_0_r. }
  unfold receiveAll in *. simpl. rewrite IH. unfold receive, labelsOf at 2.
  destruct (unmarshal data) as [v|] eqn:Hv; simpl.
  - rewrite count_Inc. case_decide as Heq.
    + rewrite filter_cons_True by (simpl; unfold labelsOf; rewrite Hv; simpl; congruence).
      cbn [length]. by rewrite Nat.add_succ_r.
    + rewrite filter_cons_False by (simpl; unfold labelsOf; rewrite Hv; simpl; congruence).
      done.
  - rewrite filter_cons_False by (simpl; unfold labelsOf; by rewrite Hv). done.
Qed.

End ListenerFacts.

(** ** More on interleavings *)

Lemma stepf_pool j s s' :
  stepf j s = Some s' →
  ∃ t t', pool s !! j = Some t ∧ pool s' = <[j := t']> (pool s) ∧
          (∀ i, i ∈ readers s' → i = j ∨ i ∈ readers s).
Proof.
  unfold stepf. destruct (pool s !! j) as [t|] eqn:Hj; simpl; [|done].
  destruct (code t); try case_decide; intros [= <-]; simpl;
    eexists _, _; (split; [done|]); (split; [done|]); intros i Hi; auto.
  - apply elem_of_union in Hi as [Hi|Hi]; [|by right].
    left. by apply elem_of_singleton in Hi.
  - apply elem_of_difference in Hi as [Hi _]. by right.
Qed.

Lemma stepf_other j s s' i :
  stepf j s = Some s' → i ≠ j →
  pool s' !! i = pool s !! i ∧ (i ∈ readers s' ↔ i ∈ readers s) ∧
  (writer s' = Some i ↔ writer s = Some i) ∧
  madeBy i (calls s') = madeBy i (calls s).
Proof.
  unfold stepf. intros Hstep Hne.
  destruct (pool s !! j) as [t|] eqn:Hj; simpl in Hstep; [|done].
  destruct (code t); try case_decide; simplify_eq; simpl;
    rewrite list_lookup_insert_ne by done;
    rewrite ?elem_of_added, ?elem_of_removed by done;
    repeat split; try done; try congruence.
  - destruct_and!. congruence.
  - unfold madeBy. by rewrite filter_cons_False by (simpl; congruence).
Qed.

Lemma stepf_cfg j s s' :
  stepf j s = Some s' →
  cfg s' = cfg s ∨ ∃ t f x k, pool s !! j = Some t ∧ code t = Write f x k.
Proof.
  unfold stepf. destruct (pool s !! j) as [t|] eqn:Hj; simpl; [|done].
  destruct (code t) eqn:Hc; try case_decide; intros [= <-]; simpl; auto.
  right. by eexists _, _, _, _.
Qed.

Lemma processVulnerability_same up c v ch v' :
  processVulnerability up c v = Some (ch, v') → v' = v.
Proof. unfold processVulnerability. repeat case_match; congruence. Qed.

Lemma getConfigHandler_alone c : alone getConfigHandler c = ([Execute c], c).
Proof. by destruct c. Qed.

Section MoreInterleavings.

Variable up : string → string.

(** X7: the four string fields of [config] are accessed under the lock
    only: a goroutine about to read one of them holds the read lock and no
    writer is in, and a goroutine about to write one of them holds the write
    lock and no reader is in.  (The [Mutex] field, which the copy of the
    struct made for [tmpl.Execute] also reads, is not covered.) *)
Theorem config_accesses_locked requests s i t :
  reachable up requests s →
  pool s !! i = Some t →
  (∀ f k, code t = Read f k → i ∈ readers s ∧ writer s = None) ∧
  (∀ f x k, code t = Write f x k → writer s = Some i ∧ readers s = ∅).
Proof.
  intros Hs Hi. apply reachable_invariant in Hs.
  pose proof (inv_follows _ s Hs i t Hi) as Hf. split.
  - intros f k Hc. rewrite Hc in Hf. inversion Hf as [| | |f' k' _ Hm| | | | |]; subst.
    symmetry in Hm. apply modeOf_Reading in Hm as [_ Hr].
    split; [done|]. by eapply reader_excludes_writer.
  - intros f x k Hc. rewrite Hc in Hf.
    inversion Hf as [| | | | | |f' x' k' _ Hm| |]; subst.
    symmetry in Hm. apply modeOf_Writing in Hm.
    split; [done|]. by eapply inv_excl.
Qed.

(** X8: a handler that has returned holds the lock neither for writing nor
    for reading. *)
Theorem returned_holds_no_lock requests s i t :
  reachable up requests s →
  pool s !! i = Some t →
  code t = Done →
  writer s ≠ Some i ∧ i ∉ readers s.
Proof.
  intros Hs Hi Hc. apply reachable_invariant in Hs.
  pose proof (inv_follows _ s Hs i t Hi) as Hf. rewrite Hc in Hf.
  inversion Hf as [Hm| | | | | | | |]. symmetry in Hm.
  unfold modeOf in Hm. by repeat case_decide.
Qed.

(** X9: whenever no goroutine holds the write lock, [config] is a
    configuration installed whole: the defaults, or exactly what the form of
    one [POST /config] describes. *)
Theorem idle_config_installed requests s :
  reachable up requests s →
  writer s = None →
  cfg s ∈ installed requests.
Proof. intros Hs. apply reachable_invariant in Hs. by apply (inv_idle _ s Hs). Qed.

Lemma handler_readerBody r :
  isPost r = false → ∃ k, handler up r = RLock k ∧ readerBody k.
Proof.
  destruct r as [v| |form]; [| |done]; intros _; simpl; eexists; (split; [done|]).
  - assert (Hsend : ∀ chan, readerBody (sendAndReturn chan v))
      by (intros; repeat constructor).
    assert (Helse : ∀ n, readerBody (elseIfApp v n)).
    { intros n. unfold elseIfApp. case_match; [|constructor].
      constructor. intros m. case_match; [apply Hsend|constructor]. }
    simpl. case_match; [|apply Helse].
    constructor. intros m. case_match; [apply Hsend|apply Helse].
  - repeat (constructor; try intros ?).
Qed.

Lemma tracking_initial requests : tracking up requests (initial up requests).
Proof.
  intros i r Hr. exists (mkThread (handler up r) []). split.
  - simpl. by rewrite list_lookup_fmap, Hr.
  - intros _. left. split; [done|]. split; [done|].
    apply modeOf_is_Free; [done|apply not_elem_of_empty].
Qed.

Lemma tracking_step requests s j s' :
  reachable up requests s → tracking up requests s → stepf j s = Some s' →
  tracking up requests s'.
Proof.
  intros Hs Htr Hstep i r Hr. destruct (Htr i r Hr) as (t & Hi & Ht).
  pose proof (reachable_invariant up requests s Hs) as Inv.
  destruct (decide (i = j)) as [->|Hne].
  - (* the goroutine that stepped *)
    destruct (isPost r) eqn:Hpost.
    { destruct (stepf_pool j s s' Hstep) as (t0 & t' & _ & -> & _).
      exists t'. split; [by eapply lookup_updated|done]. }
    destruct (Ht eq_refl) as [(Hc & Hm & Hmode)|[(Hrd & Hb & Heq)|(Hc & _)]].
    + destruct (handler_readerBody r Hpost) as (k & Hk & Hbody).
      unfold stepf in Hstep. rewrite Hi in Hstep. simpl in Hstep.
      rewrite Hc, Hk in Hstep. case_decide; [|done]. injection Hstep as <-.
      eexists. split; [by eapply lookup_updated|]. intros _. right. left. simpl.
      split; [apply elem_of_union; left; by apply elem_of_singleton|].
      split; [done|]. by rewrite Hm, Hk.
    + pose proof (reader_excludes_writer _ s j Inv Hrd) as Hw.
      unfold stepf in Hstep. rewrite Hi in Hstep. simpl in Hstep.
      destruct Hb as [f k Hk|e k Hk|]; simpl in Hstep.
      * injection Hstep as <-. eexists. split; [by eapply lookup_updated|].
        intros _. right. left. simpl. split; [done|]. split; [apply Hk|]. done.
      * injection Hstep as <-. eexists. split; [by eapply lookup_updated|].
        intros _. right. left. simpl. split; [done|]. split; [done|].
        unfold madeBy in *. rewrite filter_cons_True by done. simpl.
        rewrite reverse_cons, <- Heq. simpl.
        destruct (alone k (cfg s)) as [es c']. simpl.
        by rewrite <- app_assoc.
      * rewrite decide_True in Hstep by done. injection Hstep as <-.
        eexists. split; [by eapply lookup_updated|].
        intros _. right. right. simpl. split; [done|].
        exists (cfg s). split; [by apply (inv_idle _ s Inv)|].
        rewrite <- Heq. simpl. by rewrite app_nil_r.
    + unfold stepf in Hstep. rewrite Hi in Hstep. simpl in Hstep.
      by rewrite Hc in Hstep.
  - (* another goroutine stepped *)
    destruct (stepf_other j s s' i Hstep Hne) as (Hp & Hr' & Hw' & Hm').
    exists t. split; [by rewrite Hp|]. intros Hpost.
    destruct (Ht Hpost) as [(Hc & Hm & Hmode)|[(Hrd & Hb & Heq)|(Hc & c & Hcin & Heq)]].
    + left. split; [done|]. split; [by rewrite Hm'|].
      by rewrite (modeOf_unchanged s s' i).
    + right. left. split; [by apply Hr'|]. split; [done|].
      destruct (stepf_cfg j s s' Hstep) as [->|(tj & f & x & k & Hj & Hc)].
      { by rewrite Hm'. }
      pose proof (inv_follows _ s Inv j tj Hj) as Hf. rewrite Hc in Hf.
      inversion Hf as [| | | | | |f' x' k' _ Hmode| |]; subst.
      symmetry in Hmode. apply modeOf_Writing in Hmode.
      rewrite (inv_excl _ s Inv j Hmode) in Hrd. by apply not_elem_of_empty in Hrd.
    + right. right. split; [done|]. exists c. split; [done|]. by rewrite Hm'.
Qed.

Lemma reachable_tracking requests s :
  reachable up requests s → tracking up requests s.
Proof.
  induction 1 as [|s j s' Hs IH Hstep]; [apply tracking_initial|].
  by eapply tracking_step.
Qed.

(** The calls a goroutine has made begin the calls of its handler run by
    itself on a configuration installed whole. *)
Lemma tracked_calls requests s i r :
  reachable up requests s → requests !! i = Some r → isPost r = false →
  ∃ c rest, c ∈ installed requests ∧
    (reverse (madeBy i (calls s)) ++ rest)%list = (alone (handler up r) c).1.
Proof.
  intros Hs Hr Hpost. pose proof (reachable_invariant up requests s Hs) as Inv.
  destruct (reachable_tracking requests s Hs i r Hr) as (t & Hi & Ht).
  destruct (Ht Hpost) as [(Hc & Hm & Hmode)|[(Hrd & Hb & Heq)|(Hc & c & Hcin & Heq)]].
  - exists config, (alone (handler up r) config).1.
    split; [apply installed_config|by rewrite Hm].
  - exists (cfg s), (alone (code t) (cfg s)).1. split; [|done].
    apply (inv_idle _ s Inv). by eapply reader_excludes_writer.
  - exists c, []. split; [done|]. by rewrite app_nil_r.
Qed.

Lemma elem_of_madeBy i e (l : list (nat * call)) : (i, e) ∈ l → e ∈ reverse (madeBy i l).
Proof.
  intros H. apply elem_of_reverse. unfold madeBy.
  apply (list_elem_of_fmap_2 snd _ (i, e)). by apply list_elem_of_filter.
Qed.

(** X12: a finding whose handler has returned was decided as
    [processVulnerability] decides on a configuration installed whole: the
    calls its goroutine made are the one call the function returns there,
    or none. *)
Theorem finding_decided_on_installed requests s i v t :
  reachable up requests s →
  requests !! i = Some (Finding v) →
  pool s !! i = Some t →
  code t = Done →
  ∃ c, c ∈ installed requests ∧
       reverse (madeBy i (calls s)) =
         match processVulnerability up c v with
         | Some (channel, v') => [SendToSlack channel v']
         | None => []
         end.
Proof.
  intros Hs Hr Hi Hc.
  destruct (reachable_tracking requests s Hs i _ Hr) as (t' & Hi' & Ht).
  rewrite Hi in Hi'. injection Hi' as <-.
  destruct (Ht eq_refl) as [(Hc' & _)|[(_ & Hb & _)|(_ & c & Hcin & Heq)]].
  - rewrite Hc in Hc'. discriminate Hc'.
  - rewrite Hc in Hb. inversion Hb.
  - exists c. split; [done|]. rewrite Heq. apply processVulnerabilityHandler_alone.
Qed.

(** X13: at any moment of any interleaving, a call made by the goroutine of
    a finding is the call of [sendToSlack] that [processVulnerability]
    returns for this finding on a configuration installed whole, and the
    goroutine has made at most one call. *)
Theorem sendToSlack_calls_decided requests s i v e :
  reachable up requests s →
  requests !! i = Some (Finding v) →
  (i, e) ∈ calls s →
  (∃ c channel, c ∈ installed requests ∧
     processVulnerability up c v = Some (channel, v) ∧ e = SendToSlack channel v) ∧
  (length (madeBy i (calls s)) ≤ 1)%nat.
Proof.
  intros Hs Hr He.
  destruct (tracked_calls requests s i _ Hs Hr eq_refl) as (c & rest & Hc & Heq).
  change (handler up (Finding v)) with (processVulnerabilityHandler up v) in Heq.
  rewrite processVulnerabilityHandler_alone in Heq.
  apply elem_of_madeBy in He.
  assert (Hin : e ∈ (reverse (madeBy i (calls s)) ++ rest)%list)
    by (apply elem_of_app; by left).
  apply (f_equal length) in Heq as Hlen. rewrite length_app, length_reverse in Hlen.
  rewrite Heq in Hin.
  destruct (processVulnerability up c v) as [[ch v']|] eqn:Hpv.
  - apply list_elem_of_singleton in Hin as ->.
    pose proof (processVulnerability_same up c v ch v' Hpv) as ->.
    split; [by exists c, ch|]. simpl in Hlen. lia.
  - by apply elem_of_nil in Hin.
Qed.

(** X14: at any moment of any interleaving, the configuration that
    [GET /config] hands to the template is one installed whole. *)
Theorem page_renders_installed requests s i e :
  reachable up requests s →
  requests !! i = Some GetConfig →
  (i, e) ∈ calls s →
  ∃ c, c ∈ installed requests ∧ e = Execute c.
Proof.
  intros Hs Hr He.
  destruct (tracked_calls requests s i _ Hs Hr eq_refl) as (c & rest & Hc & Heq).
  change (handler up GetConfig) with getConfigHandler in Heq.
  rewrite getConfigHandler_alone in Heq. simpl in Heq.
  apply elem_of_madeBy in He.
  assert (Hin : e ∈ (reverse (madeBy i (calls s)) ++ rest)%list)
    by (apply elem_of_app; by left).
  rewrite Heq in Hin. apply list_elem_of_singleton in Hin. by exists c.
Qed.

(** X15: only [POST /config] changes the configuration: a step of the
    goroutine of a finding or of [GET /config] leaves [config] as it is and
    does not take or release the write lock. *)
Theorem only_post_changes_config requests s i r s' :
  reachable up requests s →
  requests !! i = Some r →
  isPost r = false →
  stepf i s = Some s' →
  cfg s' = cfg s ∧ writer s' = writer s.
Proof.
  intros Hs Hr Hpost Hstep.
  destruct (reachable_tracking requests s Hs i r Hr) as (t & Hi & Ht).
  unfold stepf in Hstep. rewrite Hi in Hstep. simpl in Hstep.
  destruct (Ht Hpost) as [(Hc & _)|[(_ & Hb & _)|(Hc & _)]].
  - destruct (handler_readerBody r Hpost) as (k & Hk & _).
    rewrite Hc, Hk in Hstep. case_decide; [|done]. by injection Hstep as <-.
  - destruct Hb; simpl in Hstep; try case_decide; simplify_eq; done.
  - by rewrite Hc in Hstep.
Qed.

(** X16: [POST /config] answers with its redirect while it holds the write
    lock: a goroutine about to call [c.Redirect] is the writer, and no
    goroutine can take the read lock before the handler returns the lock. *)
Theorem redirect_under_write_lock requests s i t k :
  reachable up requests s →
  pool s !! i = Some t →
  code t = Call Redirect k →
  writer s = Some i ∧
  (∀ j u k', pool s !! j = Some u → code u = RLock k' → stepf j s = None).
Proof.
  intros Hs Hi Hc. apply reachable_invariant in Hs.
  pose proof (inv_follows _ s Hs i t Hi) as Hf. rewrite Hc in Hf.
  assert (Hw : writer s = Some i).
  { inversion Hf as [| | | |e' k' He _ Hm| | |k' _ Hm|]; subst; [done|].
    symmetry in Hm. by apply modeOf_Writing in Hm. }
  split; [done|]. intros j u k' Hj Hu. unfold stepf. rewrite Hj. simpl.
  rewrite Hu, Hw. by rewrite decide_False.
Qed.

(** X10: no handler asks for [config.Mutex] while it holds it: in every
    reachable state a goroutine about to call [RLock] or [Lock] holds the
    lock neither for reading nor for writing, so no read lock is taken
    twice and none is turned into a write lock. *)
Theorem no_lock_requested_while_held requests s i t k :
  reachable up requests s →
  pool s !! i = Some t →
  code t = RLock k ∨ code t = Lock k →
  writer s ≠ Some i ∧ i ∉ readers s.
Proof.
  intros Hs Hi Hc. apply reachable_invariant in Hs.
  pose proof (inv_follows _ s Hs i t Hi) as Hf.
  assert (Hm : modeOf s i = Free).
  { destruct Hc as [Hc|Hc]; rewrite Hc in Hf; inversion Hf; done. }
  unfold modeOf in Hm. by repeat case_decide.
Qed.

(** C7, amended: a reader, the handler of a finding or of [GET /config],
    holds the read lock from its entry to its return: in every reachable
    state it has not started and holds nothing, or it holds the read lock
    and has only reads, calls and the deferred unlock before its return
    left, or it has returned and holds nothing.  Its first step takes the
    read lock; it reads the fields with the lock held; at a call of
    [sendToSlack] or [tmpl.Execute] it holds the lock, makes the call and
    holds the lock still, and no [Lock] can be taken meanwhile; and a step
    it takes with the lock held keeps the lock unless it is the return. *)
Theorem read_lock_held_until_return requests s i r t :
  reachable up requests s →
  requests !! i = Some r →
  isPost r = false →
  pool s !! i = Some t →
  ((code t = handler up r ∧ modeOf s i = Free) ∨
   (i ∈ readers s ∧ readerBody (code t)) ∨
   (code t = Done ∧ modeOf s i = Free)) ∧
  (∀ s', code t = handler up r → stepf i s = Some s' → i ∈ readers s') ∧
  (∀ f k, code t = Read f k → i ∈ readers s) ∧
  (∀ e k, code t = Call e k →
     i ∈ readers s ∧
     (∃ s', stepf i s = Some s' ∧ calls s' = (i, e) :: calls s ∧ i ∈ readers s') ∧
     (∀ j u k', pool s !! j = Some u → code u = Lock k' → stepf j s = None)) ∧
  (∀ s', i ∈ readers s → stepf i s = Some s' →
     i ∈ readers s' ∨ ∃ t', pool s' !! i = Some t' ∧ code t' = Done).
Proof.
  intros Hs Hr Hpost Hi.
  pose proof (reachable_invariant up requests s Hs) as Inv.
  destruct (reachable_tracking requests s Hs i r Hr) as (t' & Hi' & Ht).
  rewrite Hi in Hi'. injection Hi' as <-. specialize (Ht Hpost).
  destruct (handler_readerBody r Hpost) as (k0 & Hk0 & _).
  pose proof (inv_follows _ s Inv i t Hi) as Hf.
  assert (Hstand : (code t = handler up r ∧ modeOf s i = Free) ∨
                   (i ∈ readers s ∧ readerBody (code t)) ∨
                   (code t = Done ∧ modeOf s i = Free)).
  { destruct Ht as [(Hc & _ & Hm)|[(Hrd & Hb & _)|(Hc & _)]]; [by left|by right; left|].
    right. right. split; [done|]. rewrite Hc in Hf. by inversion Hf. }
  assert (Hheld : ∀ p, code t = p → p ≠ handler up r → p ≠ Done → i ∈ readers s).
  { intros p Hp Hnh Hnd. destruct Hstand as [[Hc _]|[[Hrd _]|[Hc _]]]; congruence. }
  split; [done|]. split; [|split; [|split]].
  - (* the first step *)
    intros s' Hc Hstep. unfold stepf in Hstep. rewrite Hi in Hstep. simpl in Hstep.
    rewrite Hc, Hk0 in Hstep. case_decide; [|done]. injection Hstep as <-. simpl.
    apply elem_of_union. left. by apply elem_of_singleton.
  - (* reads *)
    intros f k Hc. apply (Hheld _ Hc); rewrite ?Hk0; discriminate.
  - (* calls *)
    intros e k Hc.
    assert (Hrd : i ∈ readers s) by (apply (Hheld _ Hc); rewrite ?Hk0; discriminate).
    split; [done|]. split.
    + eexists. unfold stepf. rewrite Hi. simpl. rewrite Hc. split; [done|]. by simpl.
    + intros j u k' Hj Hu. unfold stepf. rewrite Hj. simpl. rewrite Hu.
      case_decide as Hd; [|done]. destruct Hd as [_ Hd]. rewrite Hd in Hrd.
      by apply not_elem_of_empty in Hrd.
  - (* the lock is kept up to the return *)
    intros s' Hrd Hstep.
    destruct Hstand as [[_ Hm]|[[_ Hb]|[_ Hm]]];
      [unfold modeOf in Hm; by repeat case_decide| |
       unfold modeOf in Hm; by repeat case_decide].
    unfold stepf in Hstep. rewrite Hi in Hstep. simpl in Hstep.
    destruct Hb as [f k Hk|e k Hk|]; simpl in Hstep.
    + injection Hstep as <-. by left.
    + injection Hstep as <-. by left.
    + rewrite decide_True in Hstep by done. injection Hstep as <-. right. simpl.
      eexists. split; [by eapply lookup_updated|done].
Qed.

End MoreInterleavings.

(** ** The added properties at concrete inputs *)

Lemma critical_never_muted_witness :
  ∃ ch m,
    ruleOf (postConfig formAppCritical config) "APP" = Some (ch, m) ∧
    processVulnerability asciiOnly (postConfig formAppCritical config)
      (finding "critical" "APP") = Some (ch, finding "critical" "APP").
Proof.
  apply (critical_never_muted asciiOnly (postConfig formAppCritical config)
           (finding "critical" "APP")); [reflexivity|by right].
Defined.

Lemma dispatch_sound_witness :
  finding "HIGH" "APP" = finding "HIGH" "APP" ∧
  ∃ m, ruleOf config "APP" = Some ("#app-vulns", m) ∧
       rank m ≤ rank (ToUpper asciiOnly "HIGH").
Proof.
  exact (dispatch_sound asciiOnly config (finding "HIGH" "APP") "#app-vulns"
           (finding "HIGH" "APP") eq_refl).
Defined.

Lemma dispatch_monotone_witness :
  processVulnerability asciiOnly config (finding "critical" "OS")
    = Some ("#os-vulns", finding "critical" "OS").
Proof.
  apply (dispatch_monotone asciiOnly config (finding "medium" "OS"));
    [reflexivity|reflexivity|vm_compute; discriminate].
Defined.

Lemma decision_own_rule_witness :
  processVulnerability asciiOnly config (finding "HIGH" "APP")
    = processVulnerability asciiOnly (postConfig formKeepApp config) (finding "HIGH" "APP").
Proof. apply decision_own_rule. reflexivity. Defined.

Ltac runs := vm_compute; by eexists.

Lemma config_accesses_locked_witness :
  (2%nat ∈ readers (after requestsRace [2; 2]%nat) ∧
   writer (after requestsRace [2; 2]%nat) = None) ∧
  (writer (after requestsRace [0; 0]%nat) = Some 0%nat ∧
   readers (after requestsRace [0; 0]%nat) = ∅).
Proof.
  split.
  - edestruct (config_accesses_locked asciiOnly requestsRace
                 (after requestsRace [2; 2]%nat) 2%nat) as [Hread _];
      [apply after_reachable; runs|reflexivity|].
    eapply Hread. reflexivity.
  - edestruct (config_accesses_locked asciiOnly requestsRace
                 (after requestsRace [0; 0]%nat) 0%nat) as [_ Hwrite];
      [apply after_reachable; runs|reflexivity|].
    eapply Hwrite. reflexivity.
Defined.

Lemma returned_holds_no_lock_witness :
  writer (after requestsRace scheduleRace) ≠ Some 2%nat ∧
  2%nat ∉ readers (after requestsRace scheduleRace).
Proof.
  apply (returned_holds_no_lock asciiOnly requestsRace _ _
           (threadAt requestsRace scheduleRace 2));
    [apply after_reachable; runs|vm_compute; reflexivity..].
Defined.

Lemma idle_config_installed_witness :
  cfg (after requestsRace scheduleRace) ∈ installed requestsRace.
Proof.
  apply (idle_config_installed asciiOnly);
    [apply after_reachable; runs|vm_compute; reflexivity].
Defined.

Lemma finding_decided_on_installed_witness :
  ∃ c, c ∈ installed requestsRace ∧
       reverse (madeBy 1 (calls (after requestsRace scheduleAll))) =
         match processVulnerability asciiOnly c (finding "CRITICAL" "APP") with
         | Some (channel, v') => [SendToSlack channel v']
         | None => []
         end.
Proof.
  apply (finding_decided_on_installed asciiOnly requestsRace _ _ _
           (threadAt requestsRace scheduleAll 1));
    [apply after_reachable; runs|reflexivity|vm_compute; reflexivity..].
Defined.

Lemma sendToSlack_calls_decided_witness :
  (∃ c channel, c ∈ installed requestsRace ∧
     processVulnerability asciiOnly c (finding "CRITICAL" "APP")
       = Some (channel, finding "CRITICAL" "APP") ∧
     SendToSlack "#app-vulns-v2" (finding "CRITICAL" "APP")
       = SendToSlack channel (finding "CRITICAL" "APP")) ∧
  (length (madeBy 1 (calls (after requestsRace scheduleCalled))) ≤ 1)%nat.
Proof.
  apply (sendToSlack_calls_decided asciiOnly requestsRace);
    [apply after_reachable; runs|reflexivity|].
  vm_compute. constructor.
Defined.

Lemma page_renders_installed_witness :
  ∃ c, c ∈ installed requestsRace ∧ Execute config = Execute c.
Proof.
  apply (page_renders_installed asciiOnly requestsRace
           (after requestsRace scheduleRace) 2%nat);
    [apply after_reachable; runs|reflexivity|].
  vm_compute. repeat constructor.
Defined.

Lemma only_post_changes_config_witness :
  cfg (after requestsRace scheduleCalled) = cfg (after requestsRace scheduleRace) ∧
  writer (after requestsRace scheduleCalled) = writer (after requestsRace scheduleRace).
Proof.
  eapply (only_post_changes_config asciiOnly requestsRace
            (after requestsRace scheduleRace) 1%nat);
    [apply after_reachable; runs|reflexivity|reflexivity|vm_compute; reflexivity].
Defined.

Lemma redirect_under_write_lock_witness :
  writer (after requestsRace [0; 0; 0; 0; 0]%nat) = Some 0%nat.
Proof.
  eapply proj1, (redirect_under_write_lock asciiOnly requestsRace
                   (after requestsRace [0; 0; 0; 0; 0]%nat) 0%nat
                   (threadAt requestsRace [0; 0; 0; 0; 0]%nat 0) (Unlock Done));
    [apply after_reachable; runs|vm_compute; reflexivity..].
Defined.

(** Four messages, one too short to decode: "high" and "HIGH" are counted
    under two pairs of labels, the message that does not decode under
    none. *)
Example callback_run :
  let st := receiveAll asciiOnly unmarshalSeverity
              [(config, "high"); (config, "no"); (config, "HIGH"); (config, "low")]
              (mkReceived ∅ [] []) in
  count (vulnCounter st) ("high", "OS") = 1%nat ∧
  count (vulnCounter st) ("HIGH", "OS") = 1%nat ∧
  count (vulnCounter st) ("low", "OS") = 1%nat ∧
  count (vulnCounter st) ("no", "OS") = 0%nat.
Proof. repeat split; vm_compute; reflexivity. Qed.

Lemma no_lock_requested_while_held_witness :
  writer (after requestsRace [2; 2]%nat) ≠ Some 1%nat ∧
  1%nat ∉ readers (after requestsRace [2; 2]%nat).
Proof.
  eapply (no_lock_requested_while_held asciiOnly requestsRace _ _
            (threadAt requestsRace [2; 2]%nat 1));
    [apply after_reachable; runs|vm_compute; reflexivity|left; vm_compute; reflexivity].
Defined.

Lemma read_lock_held_until_return_witness :
  (1%nat ∈ readers (after requestsRace scheduleRace)) ∧
  ∃ s', stepf 1%nat (after requestsRace scheduleRace) = Some s' ∧
        calls s' = (1%nat, SendToSlack "#app-vulns-v2" (finding "CRITICAL" "APP"))
                     :: calls (after requestsRace scheduleRace) ∧
        1%nat ∈ readers s'.
Proof.
  destruct (read_lock_held_until_return asciiOnly requestsRace
              (after requestsRace scheduleRace) 1%nat
              (Finding (finding "CRITICAL" "APP"))
              (threadAt requestsRace scheduleRace 1))
    as (_ & _ & _ & Hcall & _);
    [apply after_reachable; runs|reflexivity|reflexivity|vm_compute; reflexivity|].
  destruct (Hcall (SendToSlack "#app-vulns-v2" (finding "CRITICAL" "APP")) (RUnlock Done))
    as (Hrd & Hstep & _); [vm_compute; reflexivity|].
  by split.
Defined.
